(** * kotoba-search: the word-list builder [scripts/build_words.py]

    A shallow embedding of the normalisation, extraction, deduplication
    and serialisation pipeline, and the properties its specification
    states about it.

    Conventions.
    - A Python [str] is a sequence of Unicode code points; it is modelled
      as [list Z], one integer per character, so [ord] is the identity.
    - A Python [dict] is a [gmap], a Python [set] is a [gset].
    - An exception ([KeyError], [ValueError], [IndexError],
      [UnicodeEncodeError]) is the [None] of the [option] monad. *)

From stdpp Require Import gmap list list_numbers sorting.

Local Open Scope Z_scope.

(** ** Strings and characters *)

Abbreviation str := (list Z) (only parsing).

(** [chr(i)]: defined on 0 .. 0x10FFFF, [ValueError] elsewhere. *)
Definition chr (i : Z) : option Z :=
  if decide (0 ≤ i ≤ 0x10FFFF) then Some i else None.

(** [range(a, b)]: the integers from [a] up to, but excluding, [b]. *)
Definition range (a b : Z) : list Z := seqZ a (b - a).

(** ** The tables (lines 34-35) *)

(** [{ordinal: ordinal - 0x60 for ordinal in range(ord("ァ"), ord("ヶ") + 1)}] *)
Definition KATAKANA_TO_HIRAGANA : gmap Z Z :=
  list_to_map ((λ ordinal, (ordinal, ordinal - 0x60)) <$> range 0x30A1 (0x30F6 + 1)).

(** [{chr(code) for code in range(ord("ぁ"), ord("ゟ"))} | {"ー"}] *)
Definition ALLOWED_HIRAGANA : gset Z :=
  list_to_set (range 0x3041 0x309F) ∪ {[ 0x30FC ]}.

(** ** katakana_to_hiragana (lines 38-58) *)

(** The dictionary literal [special]: ヵ→か, ヶ→け, ヷ→わ, ヸ→ゐ, ヹ→ゑ,
    ヺ→を, ヴ→ゔ. *)
Definition special : gmap Z Z :=
  list_to_map
    [ (0x30F5, 0x304B); (0x30F6, 0x3051); (0x30F7, 0x308F); (0x30F8, 0x3090);
      (0x30F9, 0x3091); (0x30FA, 0x3092); (0x30F4, 0x3094) ].

(** The body of the [for ch in text] loop: what is appended to [result]
    for one character. *)
Definition convert_char (ch : Z) : option Z :=
  match special !! ch with
  | Some h => Some h
  | None =>
      let ordinal := ch in
      if decide (0x30A1 ≤ ordinal ≤ 0x30F6)
      then h ← KATAKANA_TO_HIRAGANA !! ordinal; chr h
      else Some ch
  end.

Definition katakana_to_hiragana (text : str) : option str :=
  mapM convert_char text.

(** ** normalize_hiragana (lines 61-63) *)

Definition normalize_hiragana (text : str) : option str :=
  converted ← katakana_to_hiragana text;
  Some (filter (λ ch, ch ∈ ALLOWED_HIRAGANA) converted).

(** ** extract_words (lines 75-88) *)

(** [str.isspace] on one character: the code points Unicode classes as
    white space, which are the ones [str.strip()] removes. *)
Definition isspace (c : Z) : bool :=
  bool_decide (0x09 ≤ c ≤ 0x0D ∨ 0x1C ≤ c ≤ 0x20 ∨ c = 0x85 ∨ c = 0xA0 ∨
               c = 0x1680 ∨ 0x2000 ≤ c ≤ 0x200A ∨ c = 0x2028 ∨ c = 0x2029 ∨
               c = 0x202F ∨ c = 0x205F ∨ c = 0x3000).

Fixpoint lstrip (s : str) : str :=
  match s with
  | c :: s' => if isspace c then lstrip s' else s
  | [] => []
  end.

Definition rstrip (s : str) : str := reverse (lstrip (reverse s)).

(** [s.strip()] *)
Definition strip (s : str) : str := rstrip (lstrip s).

(** Truth value of a string in a condition: non-empty. *)
Definition truthy (s : str) : bool := bool_decide (s ≠ []).

(** Lines 80-84: the reading selected from one row.  [row[0]] on a row
    without fields would be an [IndexError]. *)
Definition row_reading (row : list str) : option str :=
  let fallback :=
    f0 ← row !! 0%nat;
    Some (if truthy f0 then strip f0 else []) in
  if decide (11 < length row)%nat
  then f11 ← row !! 11%nat;
       if truthy f11 then Some (strip f11) else fallback
  else fallback.

(** The extractor as the specification words it: field 11 if it is
    there and non-empty once trimmed, else field 0 if non-empty once
    trimmed, else the empty string. *)
Definition extract_spec (row : list str) : str :=
  let fallback :=
    match row !! 0%nat with
    | Some f0 => if truthy (strip f0) then strip f0 else []
    | None => []
    end in
  match row !! 11%nat with
  | Some f11 => if truthy (strip f11) then strip f11 else fallback
  | None => fallback
  end.

(** Python's [<] on [str]: lexicographic on code points. *)
Fixpoint str_ltb (a b : str) : bool :=
  match a, b with
  | _, [] => false
  | [], _ :: _ => true
  | x :: a', y :: b' =>
      if decide (x < y) then true
      else if decide (x = y) then str_ltb a' b' else false
  end.

Definition str_lt (a b : str) : Prop := str_ltb a b = true.
Definition str_le (a b : str) : Prop := ¬ str_lt b a.

Global Instance str_lt_dec a b : Decision (str_lt a b).
Proof. unfold str_lt. apply _. Defined.
Global Instance str_le_dec a b : Decision (str_le a b).
Proof. unfold str_le. apply _. Defined.

(** [sorted(xs)]: a stable sort that keeps the left element unless the
    right one is strictly smaller. *)
Definition sorted (xs : list str) : list str := merge_sort str_le xs.

(** One turn of the [for row in ...] loop, on the set [seen]. *)
Definition extract_step (seen : gset str) (row : list str) : option (gset str) :=
  if decide (row = []) then Some seen
  else
    reading ← row_reading row;
    hira ← normalize_hiragana reading;
    Some (if truthy hira then {[ hira ]} ∪ seen else seen).

Fixpoint extract_loop (seen : gset str) (rows : list (list str)) : option (gset str) :=
  match rows with
  | [] => Some seen
  | row :: rows' => seen' ← extract_step seen row; extract_loop seen' rows'
  end.

(** [extract_words], on the rows that [iter_word_rows] yields. *)
Definition extract_words (rows : list (list str)) : option (list str) :=
  seen ← extract_loop ∅ rows;
  Some (sorted (elements seen)).

(** ** write_wordlist (lines 91-95) *)

(** The [utf-8] codec on one character; a surrogate is a
    [UnicodeEncodeError]. *)
Definition utf8_encode_char (c : Z) : option (list Z) :=
  if decide (0 ≤ c < 0x80) then Some [c]
  else if decide (0x80 ≤ c < 0x800) then
    Some [0xC0 + c / 0x40; 0x80 + c `mod` 0x40]
  else if decide (0xD800 ≤ c ≤ 0xDFFF) then None
  else if decide (0x800 ≤ c < 0x10000) then
    Some [0xE0 + c / 0x1000; 0x80 + (c / 0x40) `mod` 0x40; 0x80 + c `mod` 0x40]
  else if decide (0x10000 ≤ c ≤ 0x10FFFF) then
    Some [0xF0 + c / 0x40000; 0x80 + (c / 0x1000) `mod` 0x40;
          0x80 + (c / 0x40) `mod` 0x40; 0x80 + c `mod` 0x40]
  else None.

Definition utf8_encode (text : str) : option (list Z) :=
  encoded ← mapM utf8_encode_char text;
  Some (concat encoded).

(** A 32-bit unsigned integer, little endian ([write32u]). *)
Definition le32 (n : Z) : list Z :=
  [n `mod` 0x100; (n / 0x100) `mod` 0x100; (n / 0x10000) `mod` 0x100;
   (n / 0x1000000) `mod` 0x100].

(** The name the [gzip] module stores in the header: the base name of
    [WORDS_GZ] without its [.gz] suffix, ["words.txt"]. *)
Definition gzip_fname : list Z :=
  [0x77; 0x6F; 0x72; 0x64; 0x73; 0x2E; 0x74; 0x78; 0x74].

(** The header [gzip.open(path, "wt")] writes: magic, method 8, flags
    FNAME, MTIME, XFL 2 (compression level 9), OS 255, name and NUL.
    [gzip.open] passes no [mtime], so MTIME is the clock at that time. *)
Definition gzip_header (mtime : Z) : list Z :=
  [0x1F; 0x8B; 0x08; 0x08] ++ le32 mtime ++ [0x02; 0xFF] ++ gzip_fname ++ [0x00].

Section Serializer.
(** The zlib compressor and checksum the [gzip] module calls. *)
Variable deflate : list Z → list Z.
Variable crc32 : list Z → Z.

Definition gzip_trailer (data : list Z) : list Z :=
  le32 (crc32 data) ++ le32 (Z.of_nat (length data) `mod` 0x100000000).

Definition gzip_member (mtime : Z) (data : list Z) : list Z :=
  gzip_header mtime ++ deflate data ++ gzip_trailer data.

(** [write_wordlist]: the bytes of [WORDS_GZ] after the call, when the
    clock reads [now] seconds.  A clock outside 32 bits is a
    [struct.error] in [write32u]. *)
Definition write_wordlist (now : Z) (words : list str) : option (list Z) :=
  if decide (0 ≤ now < 0x100000000) then
    data ← utf8_encode (concat ((λ word, word ++ [0x0A]) <$> words));
    Some (gzip_member now data)
  else None.
End Serializer.

(** ** Reading the artifact back *)

Definition is_cont (b : Z) : Prop := 0x80 ≤ b < 0xC0.

(** Modelled from the spec: the consumer of the artifact is not part of
    the sources; this is the strict UTF-8 decoding its round trip
    names. *)
Fixpoint utf8_decode (bs : list Z) : option str :=
  match bs with
  | [] => Some []
  | b0 :: r0 =>
    if decide (0 ≤ b0 < 0x80) then (b0 ::.) <$> utf8_decode r0
    else
      match r0 with
      | [] => None
      | b1 :: r1 =>
        if decide (0xC2 ≤ b0 < 0xE0 ∧ is_cont b1) then
          ((b0 - 0xC0) * 0x40 + (b1 - 0x80) ::.) <$> utf8_decode r1
        else
          match r1 with
          | [] => None
          | b2 :: r2 =>
            if decide (0xE0 ≤ b0 < 0xF0 ∧ is_cont b1 ∧ is_cont b2) then
              let c := (b0 - 0xE0) * 0x1000 + (b1 - 0x80) * 0x40 + (b2 - 0x80) in
              if decide (0x800 ≤ c ∧ ¬ 0xD800 ≤ c ≤ 0xDFFF)
              then (c ::.) <$> utf8_decode r2 else None
            else
              match r2 with
              | [] => None
              | b3 :: r3 =>
                if decide (0xF0 ≤ b0 < 0xF8 ∧ is_cont b1 ∧ is_cont b2 ∧ is_cont b3) then
                  let c := (b0 - 0xF0) * 0x40000 + (b1 - 0x80) * 0x1000
                           + (b2 - 0x80) * 0x40 + (b3 - 0x80) in
                  if decide (0x10000 ≤ c ≤ 0x10FFFF)
                  then (c ::.) <$> utf8_decode r3 else None
                else None
              end
          end
      end
  end.

(** Modelled from the spec: splitting a text on line terminators, each
    line ending at a line feed; text after the last line feed, if any,
    is a last line of its own. *)
Fixpoint split_lines_from (cur : str) (text : str) : list str :=
  match text with
  | [] => if decide (cur = []) then [] else [cur]
  | c :: text' =>
      if decide (c = 0x0A) then cur :: split_lines_from [] text'
      else split_lines_from (cur ++ [c]) text'
  end.

Definition split_lines (text : str) : list str := split_lines_from [] text.

(** Skips the NUL-terminated name of a gzip header. *)
Fixpoint skip_cstring (bs : list Z) : option (list Z) :=
  match bs with
  | [] => None
  | b :: bs' => if decide (b = 0) then Some bs' else skip_cstring bs'
  end.

Section Reader.
(** The zlib decompressor: the data of the deflate stream at the head
    of the input, and the bytes that follow the stream. *)
Variable inflate : list Z → option (list Z * list Z).
Variable crc32 : list Z → Z.

(** Modelled from the spec: decompressing the artifact, a gzip member
    with a name field: the header is checked and skipped, the deflate
    stream inflated and the trailer compared. *)
Definition gunzip (bs : list Z) : option (list Z) :=
  match bs with
  | 0x1F :: 0x8B :: 0x08 :: 0x08 :: _ :: _ :: _ :: _ :: _ :: _ :: named =>
      body ← skip_cstring named;
      '(data, rest) ← inflate body;
      if decide (rest = gzip_trailer crc32 data) then Some data else None
  | _ => None
  end.

(** Modelled from the spec: decompress, decode as UTF-8, split on line
    terminators. *)
Definition read_wordlist (bs : list Z) : option (list str) :=
  data ← gunzip bs;
  text ← utf8_decode data;
  Some (split_lines text).
End Reader.

(** ** A compressor to run the serialiser with *)

(** The simplest self-delimiting codec, the data behind their length,
    stands in for zlib where the development evaluates the serialiser on
    an example. *)
Definition stored_deflate (data : list Z) : list Z :=
  Z.of_nat (length data) :: data.

Definition stored_inflate (bs : list Z) : option (list Z * list Z) :=
  match bs with
  | [] => None
  | n :: bs' =>
      if decide (0 ≤ n ≤ Z.of_nat (length bs'))
      then Some (take (Z.to_nat n) bs', drop (Z.to_nat n) bs') else None
  end.

(** * Properties *)

(** ** The tables *)

Lemma elem_of_range a b x : x ∈ range a b ↔ a ≤ x < b.
Proof. unfold range. rewrite elem_of_seqZ. lia. Qed.

Lemma KATAKANA_TO_HIRAGANA_lookup o v :
  KATAKANA_TO_HIRAGANA !! o = Some v ↔ 0x30A1 ≤ o ≤ 0x30F6 ∧ v = o - 0x60.
Proof.
  unfold KATAKANA_TO_HIRAGANA.
  rewrite <- elem_of_list_to_map.
  - rewrite list_elem_of_fmap. split.
    + intros (y & [= -> ->] & Hy). apply elem_of_range in Hy. lia.
    + intros [Ho ->]. exists o. split; [done|]. apply elem_of_range. lia.
  - rewrite <- list_fmap_compose.
    erewrite list_fmap_ext; [rewrite list_fmap_id; apply NoDup_seqZ|done].
Qed.

Lemma elem_of_ALLOWED_HIRAGANA c :
  c ∈ ALLOWED_HIRAGANA ↔ 0x3041 ≤ c ≤ 0x309E ∨ c = 0x30FC.
Proof.
  unfold ALLOWED_HIRAGANA.
  rewrite elem_of_union, elem_of_list_to_set, elem_of_range, elem_of_singleton. lia.
Qed.


Lemma special_NoDup :
  NoDup ([ (0x30F5, 0x304B); (0x30F6, 0x3051); (0x30F7, 0x308F); (0x30F8, 0x3090);
           (0x30F9, 0x3091); (0x30FA, 0x3092); (0x30F4, 0x3094) ].*1 : list Z).
Proof. apply (bool_decide_unpack _). vm_compute. done. Qed.

Lemma special_lookup c h :
  special !! c = Some h ↔
  (c, h) ∈ [ (0x30F5, 0x304B); (0x30F6, 0x3051); (0x30F7, 0x308F); (0x30F8, 0x3090);
             (0x30F9, 0x3091); (0x30FA, 0x3092); (0x30F4, 0x3094) ].
Proof.
  unfold special. symmetry. apply elem_of_list_to_map, special_NoDup.
Qed.

Lemma special_lookup_bounds c h :
  special !! c = Some h → 0x30F4 ≤ c ≤ 0x30FA ∧ 0x3041 ≤ h ≤ 0x309E.
Proof.
  rewrite special_lookup. rewrite !elem_of_cons, elem_of_nil.
  intros H. repeat destruct H as [[= -> ->]|H]; lia.
Qed.

Lemma special_lookup_None c :
  ¬ 0x30F4 ≤ c ≤ 0x30FA → special !! c = None.
Proof.
  intros Hc. destruct (special !! c) as [h|] eqn:E; [|done].
  apply special_lookup_bounds in E. lia.
Qed.

(** ** The per-character dispatch *)

(** The three ways the dispatch ends, and what it yields in each. *)
Lemma convert_char_cases ch :
  (∃ h, special !! ch = Some h ∧ convert_char ch = Some h) ∨
  (special !! ch = None ∧ 0x30A1 ≤ ch ≤ 0x30F6 ∧ convert_char ch = Some (ch - 0x60)) ∨
  (special !! ch = None ∧ ¬ 0x30A1 ≤ ch ≤ 0x30F6 ∧ convert_char ch = Some ch).
Proof.
  unfold convert_char. destruct (special !! ch) as [h|] eqn:E; [left; eauto|right].
  case_decide as Hr; [left|right; done].
  split; [done|split; [done|]].
  assert (KATAKANA_TO_HIRAGANA !! ch = Some (ch - 0x60)) as ->
    by by apply KATAKANA_TO_HIRAGANA_lookup.
  simpl. unfold chr. rewrite decide_True; [done|lia].
Qed.

Lemma convert_char_total ch : is_Some (convert_char ch).
Proof.
  destruct (convert_char_cases ch) as [(h & _ & ->)|[(_ & _ & ->)|(_ & _ & ->)]]; eauto.
Qed.

(** A character of the allowed alphabet is left as it is. *)
Lemma convert_char_allowed ch :
  ch ∈ ALLOWED_HIRAGANA → convert_char ch = Some ch.
Proof.
  rewrite elem_of_ALLOWED_HIRAGANA. intros Hc.
  destruct (convert_char_cases ch) as [(h & E & _)|[(_ & ? & _)|(_ & _ & ->)]];
    [|lia|done].
  apply special_lookup_bounds in E. lia.
Qed.

Lemma katakana_to_hiragana_total text : is_Some (katakana_to_hiragana text).
Proof.
  unfold katakana_to_hiragana. apply mapM_is_Some, Forall_forall.
  intros ch _. apply convert_char_total.
Qed.

Lemma katakana_to_hiragana_allowed text :
  Forall (λ ch, ch ∈ ALLOWED_HIRAGANA) text → katakana_to_hiragana text = Some text.
Proof.
  intros Hall. unfold katakana_to_hiragana. apply mapM_Some.
  induction Hall; constructor; auto using convert_char_allowed.
Qed.

Lemma normalize_hiragana_total text : is_Some (normalize_hiragana text).
Proof.
  unfold normalize_hiragana.
  destruct (katakana_to_hiragana_total text) as [converted ->]. simpl. eauto.
Qed.

Lemma normalize_hiragana_allowed text hira :
  normalize_hiragana text = Some hira → Forall (λ ch, ch ∈ ALLOWED_HIRAGANA) hira.
Proof.
  unfold normalize_hiragana. intros H. simplify_option_eq.
  apply Forall_forall. intros ch Hch. by apply list_elem_of_filter in Hch as [? _].
Qed.

Lemma normalize_hiragana_fixed text :
  Forall (λ ch, ch ∈ ALLOWED_HIRAGANA) text → normalize_hiragana text = Some text.
Proof.
  intros Hall. unfold normalize_hiragana.
  rewrite katakana_to_hiragana_allowed by done. simpl. f_equal.
  induction Hall as [|ch text Hch _ IH]; [done|].
  rewrite filter_cons_True by done. by rewrite IH.
Qed.

(** ** The normaliser: scenarios *)

(** Scenario A: アイ becomes あい. *)
Example normalize_scenario_A :
  normalize_hiragana [0x30A2; 0x30A4] = Some [0x3042; 0x3044].
Proof. vm_compute. reflexivity. Qed.

(** Scenario E: nothing of "Tokyo東京" is in the alphabet. *)
Example normalize_scenario_E :
  normalize_hiragana [0x54; 0x6F; 0x6B; 0x79; 0x6F; 0x6771; 0x4EAC] = Some [].
Proof. vm_compute. reflexivity. Qed.

(** C2, as the specification states it, fails: ヴァイオリン is spelled with
    the small ァ (U+30A1), and the result is not ゔあいおりん, whose second
    character is the full-size あ (U+3042). *)
Lemma normalize_violin_not_large_a :
  normalize_hiragana [0x30F4; 0x30A1; 0x30A4; 0x30AA; 0x30EA; 0x30F3]
  ≠ Some [0x3094; 0x3042; 0x3044; 0x304A; 0x308A; 0x3093].
Proof. vm_compute. discriminate. Qed.

(** C2, amended: normalising ヴァイオリン gives ゔぁいおりん; ヴ goes through
    the exception table, and the generic shift sends the small ァ
    (U+30A1) to the small ぁ (U+3041) and the other characters down by
    0x60 as well. *)
Theorem normalize_violin :
  normalize_hiragana [0x30F4; 0x30A1; 0x30A4; 0x30AA; 0x30EA; 0x30F3]
  = Some [0x3094; 0x3041; 0x3044; 0x304A; 0x308A; 0x3093]
  ∧ special !! 0x30F4 = Some 0x3094
  ∧ Forall (λ ch, special !! ch = None ∧ convert_char ch = Some (ch - 0x60))
           [0x30A1; 0x30A4; 0x30AA; 0x30EA; 0x30F3].
Proof.
  split; [vm_compute; reflexivity|]. split; [vm_compute; reflexivity|].
  repeat constructor; vm_compute; reflexivity.
Qed.

(** ** The normaliser: general properties *)

(** C4: normalisation is idempotent: it returns a string on every input,
    and normalising that string again returns it unchanged. *)
Theorem normalize_hiragana_idempotent (s : str) :
  ∃ hira, normalize_hiragana s = Some hira ∧ normalize_hiragana hira = Some hira.
Proof.
  destruct (normalize_hiragana_total s) as [hira E]. exists hira. split; [done|].
  eauto using normalize_hiragana_fixed, normalize_hiragana_allowed.
Qed.

(** C5: alphabet closure: every character of a normalised string is in
    U+3041 .. U+309E or is the prolonged-sound mark U+30FC. *)
Theorem normalize_hiragana_alphabet (s : str) :
  ∃ hira, normalize_hiragana s = Some hira ∧
          Forall (λ ch, 0x3041 ≤ ch ≤ 0x309E ∨ ch = 0x30FC) hira.
Proof.
  destruct (normalize_hiragana_total s) as [hira E]. exists hira. split; [done|].
  eapply Forall_impl; [by eapply normalize_hiragana_allowed|].
  intros ch Hch. by apply elem_of_ALLOWED_HIRAGANA.
Qed.

(** C6: the exception table has exactly seven keys and wins over the
    shift on each of them: ヵ and ヶ become か and け although the shift
    table holds ゕ and ゖ for them, and ヷ ヸ ヹ ヺ ヴ become わ ゐ ゑ を ゔ. *)
Theorem special_overrides_shift :
  dom special = {[ 0x30F4; 0x30F5; 0x30F6; 0x30F7; 0x30F8; 0x30F9; 0x30FA ]}
  ∧ (∀ ch, special !! ch = None ∨ convert_char ch = special !! ch)
  ∧ normalize_hiragana [0x30F5] = Some [0x304B]
  ∧ normalize_hiragana [0x30F6] = Some [0x3051]
  ∧ KATAKANA_TO_HIRAGANA !! 0x30F5 = Some 0x3095
  ∧ KATAKANA_TO_HIRAGANA !! 0x30F6 = Some 0x3096
  ∧ normalize_hiragana [0x30F7] = Some [0x308F]
  ∧ normalize_hiragana [0x30F8] = Some [0x3090]
  ∧ normalize_hiragana [0x30F9] = Some [0x3091]
  ∧ normalize_hiragana [0x30FA] = Some [0x3092]
  ∧ normalize_hiragana [0x30F4] = Some [0x3094].
Proof.
  split.
  { apply set_eq. intros ch. rewrite elem_of_dom. unfold is_Some.
    setoid_rewrite special_lookup.
    rewrite !elem_of_union, !elem_of_singleton.
    split.
    - intros [h H]. rewrite !elem_of_cons, elem_of_nil in H.
      repeat destruct H as [[= -> ->]|H]; tauto.
    - intros H. repeat destruct H as [H| ->]; [subst ch|..]; eexists;
        repeat first [apply list_elem_of_here | apply list_elem_of_further]. }
  split.
  { intros ch. unfold convert_char. destruct (special !! ch); auto. }
  split_and!; vm_compute; reflexivity.
Qed.

(** C10: normalisation never raises.  The keys of the shift table are
    exactly the code points U+30A1 .. U+30F6 of the guard, so the lookup
    under the guard is defined, and so are the dispatch on any character
    and the two functions on any string. *)
Theorem normalize_never_raises :
  (∀ ordinal, is_Some (KATAKANA_TO_HIRAGANA !! ordinal) ↔ 0x30A1 ≤ ordinal ≤ 0x30F6)
  ∧ (∀ ch, is_Some (convert_char ch))
  ∧ (∀ text, is_Some (katakana_to_hiragana text))
  ∧ (∀ text, is_Some (normalize_hiragana text)).
Proof.
  split_and!.
  - intros ordinal. unfold is_Some. setoid_rewrite KATAKANA_TO_HIRAGANA_lookup.
    split; [intros (h & Hguard & _); done|]. intros Hguard. by eexists.
  - apply convert_char_total.
  - apply katakana_to_hiragana_total.
  - apply normalize_hiragana_total.
Qed.

(** ** The reading extractor *)

Lemma truthy_true (s : str) : truthy s = true ↔ s ≠ [].
Proof. unfold truthy. by rewrite bool_decide_eq_true. Qed.

Lemma truthy_false (s : str) : truthy s = false ↔ s = [].
Proof.
  unfold truthy. rewrite bool_decide_eq_false. destruct s; naive_solver.
Qed.

Lemma strip_nil : strip [] = [].
Proof. reflexivity. Qed.

(** On a row with a field, the fallback on field 0 is that field
    trimmed. *)
Lemma row_reading_fallback (f0 : str) :
  (if truthy f0 then strip f0 else []) = strip f0.
Proof. destruct (truthy f0) eqn:E; [done|]. by apply truthy_false in E as ->. Qed.

Lemma row_reading_short (row : list str) f0 :
  row !! 0%nat = Some f0 → row !! 11%nat = None →
  row_reading row = Some (strip f0).
Proof.
  intros H0 H11. unfold row_reading. apply lookup_ge_None in H11.
  rewrite decide_False by lia. rewrite H0. simpl.
  by rewrite (row_reading_fallback f0).
Qed.

Lemma row_reading_long (row : list str) f0 f11 :
  row !! 0%nat = Some f0 → row !! 11%nat = Some f11 →
  row_reading row = Some (if truthy f11 then strip f11 else strip f0).
Proof.
  intros H0 H11. unfold row_reading.
  rewrite decide_True by (by eapply lookup_lt_Some).
  rewrite H0, H11. simpl. destruct (truthy f11); [done|].
  by rewrite (row_reading_fallback f0).
Qed.

Lemma row_reading_total (row : list str) : row ≠ [] → is_Some (row_reading row).
Proof.
  destruct row as [|f0 fields]; [done|]. intros _.
  destruct ((f0 :: fields) !! 11%nat) as [f11|] eqn:E11.
  - erewrite row_reading_long; eauto.
  - erewrite row_reading_short; eauto.
Qed.

(** C1, as the specification states it, fails: with a field 11 that is a
    single space and a field 0 that reads あ, the code returns the empty
    string where the specification falls back on field 0. *)
Lemma row_reading_blank_field_11 :
  row_reading ([0x3042] :: replicate 10 [] ++ [[0x20]])
  ≠ Some (extract_spec ([0x3042] :: replicate 10 [] ++ [[0x20]])).
Proof. vm_compute. discriminate. Qed.

(** C1, amended: on a record with at least one field, extraction returns
    field 11 trimmed when the record has more than 11 fields and field 11
    is non-empty as read, before any trimming; else field 0 trimmed when
    that is non-empty; else the empty string. *)
Theorem row_reading_cases (row : list str) (Hrow : row ≠ []) :
  ∃ reading, row_reading row = Some reading ∧
    (∀ f11, row !! 11%nat = Some f11 → f11 ≠ [] → reading = strip f11) ∧
    (∀ f0, row !! 0%nat = Some f0 →
           row !! 11%nat = None ∨ row !! 11%nat = Some [] →
           (strip f0 ≠ [] → reading = strip f0) ∧ (strip f0 = [] → reading = [])).
Proof.
  destruct row as [|f0 fields]; [done|].
  destruct ((f0 :: fields) !! 11%nat) as [f11|] eqn:E11.
  - eexists. split; [by eapply row_reading_long|]. split.
    + intros ? [= <-] Hne. apply truthy_true in Hne. by rewrite Hne.
    + intros ? [= <-] [?|[= ->]]; [done|]. simpl. split; congruence.
  - eexists. split; [by eapply row_reading_short|]. split; [done|].
    intros ? [= <-] _. split; congruence.
Qed.

(** The code and the specification's wording agree on every record
    whose field 11 is not a non-empty run of white space. *)
Lemma row_reading_extract_spec (row : list str) :
  row ≠ [] →
  (∀ f11, row !! 11%nat = Some f11 → f11 ≠ [] → strip f11 ≠ []) →
  row_reading row = Some (extract_spec row).
Proof.
  destruct row as [|f0 fields]; [done|]. intros _ Hblank.
  assert (Hfb : (if truthy (strip f0) then strip f0 else []) = strip f0).
  { destruct (truthy (strip f0)) eqn:E; [done|]. by apply truthy_false in E. }
  unfold extract_spec.
  destruct ((f0 :: fields) !! 11%nat) as [f11|] eqn:E11.
  - erewrite row_reading_long by eauto. simpl. rewrite Hfb.
    destruct (truthy f11) eqn:E.
    + apply truthy_true in E. specialize (Hblank f11 eq_refl E).
      apply truthy_true in Hblank. by rewrite Hblank.
    + apply truthy_false in E as ->. by rewrite strip_nil.
  - erewrite row_reading_short by eauto. simpl. by rewrite Hfb.
Qed.

Lemma row_reading_cases_witness :
  ∃ reading,
    row_reading [[0x3042]; []; []; []; []; []; []; []; []; []; []; [0x20]] = Some reading ∧
    (∀ f11, [[0x3042]; []; []; []; []; []; []; []; []; []; []; [0x20]] !! 11%nat = Some f11 →
            f11 ≠ [] → reading = strip f11) ∧
    (∀ f0, [[0x3042]; []; []; []; []; []; []; []; []; []; []; [0x20]] !! 0%nat = Some f0 →
           [[0x3042]; []; []; []; []; []; []; []; []; []; []; [0x20]] !! 11%nat = None ∨
           [[0x3042]; []; []; []; []; []; []; []; []; []; []; [0x20]] !! 11%nat = Some [] →
           (strip f0 ≠ [] → reading = strip f0) ∧ (strip f0 = [] → reading = [])).
Proof.
  apply (row_reading_cases [[0x3042]; []; []; []; []; []; []; []; []; []; []; [0x20]]).
  discriminate.
Defined.

(** ** The order on strings *)

Lemma str_ltb_irrefl (a : str) : str_ltb a a = false.
Proof.
  induction a as [|x a IH]; [done|]. simpl.
  rewrite decide_False by lia. by rewrite decide_True.
Qed.

Lemma str_ltb_trans (a b c : str) :
  str_ltb a b = true → str_ltb b c = true → str_ltb a c = true.
Proof.
  revert b c. induction a as [|x a IH]; intros [|y b] [|z c]; simpl; try done.
  repeat case_decide; try done; try lia; subst; eauto.
Qed.

Lemma str_ltb_connex (a b : str) :
  str_ltb a b = false → str_ltb b a = false → a = b.
Proof.
  revert b. induction a as [|x a IH]; intros [|y b]; simpl; try done.
  repeat case_decide; try done; try lia. intros. f_equal; auto.
Qed.

Lemma str_lt_asymm (a b : str) : str_lt a b → ¬ str_lt b a.
Proof.
  unfold str_lt. intros Hab Hba.
  pose proof (str_ltb_trans _ _ _ Hab Hba) as Haa.
  by rewrite str_ltb_irrefl in Haa.
Qed.

Lemma str_le_lt_eq (a b : str) : str_le a b ↔ str_lt a b ∨ a = b.
Proof.
  unfold str_le, str_lt. split.
  - intros Hba. destruct (str_ltb a b) eqn:Hab; [by left|right].
    apply str_ltb_connex; [done|]. by destruct (str_ltb b a).
  - intros [Hab| ->]; [by apply str_lt_asymm|]. by rewrite str_ltb_irrefl.
Qed.

Global Instance str_lt_trans : Transitive str_lt.
Proof. intros a b c. apply str_ltb_trans. Qed.

Global Instance str_le_total : Total str_le.
Proof.
  intros a b. destruct (decide (str_lt b a)) as [Hba|Hba]; [right|by left].
  by apply str_lt_asymm.
Qed.

Global Instance str_le_trans : Transitive str_le.
Proof.
  intros a b c. rewrite !str_le_lt_eq.
  intros [Hab| ->] [Hbc| ->]; eauto. left. by etrans.
Qed.

Global Instance str_le_antisymm : AntiSymm (=) str_le.
Proof.
  intros a b. rewrite str_le_lt_eq. unfold str_le. intros [Hab| ->]; done.
Qed.

(** ** sorted *)

Lemma sorted_Permutation (xs : list str) : sorted xs ≡ₚ xs.
Proof. apply merge_sort_Permutation. Qed.

Lemma sorted_StronglySorted (xs : list str) : StronglySorted str_le (sorted xs).
Proof. apply (StronglySorted_merge_sort str_le). Qed.

(** The sorted list does not depend on the order in which the set is
    enumerated. *)
Lemma sorted_enumeration (xs ys : list str) : xs ≡ₚ ys → sorted xs = sorted ys.
Proof.
  intros Hp. apply (StronglySorted_unique str_le); auto using sorted_StronglySorted.
  by rewrite !sorted_Permutation.
Qed.

(** Without repeated elements, ascending is strictly ascending. *)
Lemma StronglySorted_str_lt (xs : list str) :
  NoDup xs → StronglySorted str_le xs → StronglySorted str_lt xs.
Proof.
  intros Hnd Hs. induction Hs as [|x xs Hs IH Hall]; [constructor|].
  apply NoDup_cons in Hnd as [Hx Hnd]. constructor; [auto|].
  rewrite Forall_forall in Hall |- *. intros y Hy.
  destruct (proj1 (str_le_lt_eq x y) (Hall y Hy)) as [?| ->]; done.
Qed.

Lemma sorted_strict (xs : list str) : NoDup xs → StronglySorted str_lt (sorted xs).
Proof.
  intros Hnd. apply StronglySorted_str_lt; [|apply sorted_StronglySorted].
  by rewrite sorted_Permutation.
Qed.

(** ** extract_words *)

(** What one row adds to the set: its reading, normalised, when that is
    not empty. *)
Lemma extract_step_elem (seen : gset str) (row : list str) :
  ∃ seen', extract_step seen row = Some seen' ∧
    ∀ hira, hira ∈ seen' ↔
      hira ∈ seen ∨
      (hira ≠ [] ∧ ∃ reading, row_reading row = Some reading ∧
                              normalize_hiragana reading = Some hira).
Proof.
  unfold extract_step. case_decide as Hrow.
  - subst row. exists seen. split; [done|]. intros hira. split; [auto|].
    intros [?|(_ & reading & [=] & _)]; done.
  - destruct (row_reading_total row Hrow) as [reading Hr]. rewrite Hr. simpl.
    destruct (normalize_hiragana_total reading) as [hira' Hn]. rewrite Hn. simpl.
    eexists. split; [done|]. intros hira.
    assert (Hsame : ∀ r h, Some reading = Some r → normalize_hiragana r = Some h → h = hira')
      by (intros r h [= <-]; congruence).
    destruct (truthy hira') eqn:E.
    + apply truthy_true in E. rewrite elem_of_union, elem_of_singleton.
      split.
      * intros [->|?]; [right|by left]. split; [done|]. by exists reading.
      * intros [?|(_ & r & Hr' & Hn')]; [by right|left]. eauto.
    + apply truthy_false in E as ->. split; [auto|].
      intros [?|(Hne & r & Hr' & Hn')]; [done|]. by apply Hsame in Hn'.
Qed.

Lemma extract_loop_elem (rows : list (list str)) (seen : gset str) :
  ∃ seen', extract_loop seen rows = Some seen' ∧
    ∀ hira, hira ∈ seen' ↔
      hira ∈ seen ∨
      (hira ≠ [] ∧ ∃ row reading, row ∈ rows ∧ row_reading row = Some reading ∧
                                  normalize_hiragana reading = Some hira).
Proof.
  revert seen. induction rows as [|row rows IH]; intros seen; simpl.
  - exists seen. split; [done|]. intros hira. split; [auto|].
    intros [?|(_ & ? & ? & []%elem_of_nil & _)]. done.
  - destruct (extract_step_elem seen row) as (seen1 & -> & H1). simpl.
    destruct (IH seen1) as (seen' & -> & H'). exists seen'. split; [done|].
    intros hira. rewrite H', H1. split.
    + intros [[?|(Hne & r & ? & ?)]|(Hne & row0 & r & ? & ? & ?)]; [by left|right..].
      * split; [done|]. exists row, r. split; [apply list_elem_of_here|done].
      * split; [done|]. exists row0, r. split; [by apply list_elem_of_further|done].
    + intros [?|(Hne & row0 & r & [->|?]%elem_of_cons & ? & ?)].
      * left. by left.
      * left. right. eauto.
      * right. eauto 10.
Qed.

Lemma extract_loop_Permutation (rows rows' : list (list str)) (seen : gset str) :
  rows ≡ₚ rows' → extract_loop seen rows = extract_loop seen rows'.
Proof.
  intros Hp.
  destruct (extract_loop_elem rows seen) as (s & -> & Hs).
  destruct (extract_loop_elem rows' seen) as (s' & -> & Hs').
  f_equal. apply set_eq. intros hira. rewrite Hs, Hs'.
  by setoid_rewrite Hp.
Qed.

(** C7: on every sequence of records [extract_words] returns a list that
    is strictly ascending in the code-point order, has no repeated
    element and does not contain the empty string. *)
Theorem extract_words_sorted_unique (rows : list (list str)) :
  ∃ words, extract_words rows = Some words ∧
           StronglySorted str_lt words ∧ NoDup words ∧ [] ∉ words.
Proof.
  unfold extract_words.
  destruct (extract_loop_elem rows ∅) as (seen & -> & Hseen). simpl.
  eexists. split; [done|]. split_and!.
  - apply sorted_strict, NoDup_elements.
  - rewrite sorted_Permutation. apply NoDup_elements.
  - rewrite sorted_Permutation, elem_of_elements, Hseen.
    intros [[]%not_elem_of_empty|[? _]]. done.
Qed.


(** C8: presenting the same records in another order does not change the
    list [extract_words] returns, whatever the order in which the set of
    readings is enumerated before it is sorted. *)
Theorem extract_words_order_independent (rows rows' : list (list str)) :
  rows ≡ₚ rows' →
  (∃ words, extract_words rows = Some words ∧ extract_words rows' = Some words) ∧
  (∃ seen seen', extract_loop ∅ rows = Some seen ∧ extract_loop ∅ rows' = Some seen' ∧
     ∀ xs xs', xs ≡ₚ elements seen → xs' ≡ₚ elements seen' → sorted xs = sorted xs').
Proof.
  intros Hp. unfold extract_words.
  rewrite <- (extract_loop_Permutation rows rows' ∅ Hp).
  destruct (extract_loop_elem rows ∅) as (seen & -> & _). simpl. split; [eauto|].
  exists seen, seen. split_and!; [done..|].
  intros xs xs' Hxs Hxs'. apply sorted_enumeration. by rewrite Hxs, Hxs'.
Qed.

Lemma extract_words_order_independent_witness :
  (∃ words,
     extract_words [[[0x30D0; 0x30A4]]; [[0x30A2; 0x30A4]]; [[0x30A2; 0x30A4]]] = Some words ∧
     extract_words [[[0x30A2; 0x30A4]]; [[0x30D0; 0x30A4]]; [[0x30A2; 0x30A4]]] = Some words) ∧
  (∃ seen seen',
     extract_loop ∅ [[[0x30D0; 0x30A4]]; [[0x30A2; 0x30A4]]; [[0x30A2; 0x30A4]]] = Some seen ∧
     extract_loop ∅ [[[0x30A2; 0x30A4]]; [[0x30D0; 0x30A4]]; [[0x30A2; 0x30A4]]] = Some seen' ∧
     ∀ xs xs', xs ≡ₚ elements seen → xs' ≡ₚ elements seen' → sorted xs = sorted xs').
Proof.
  apply (extract_words_order_independent
           [[[0x30D0; 0x30A4]]; [[0x30A2; 0x30A4]]; [[0x30A2; 0x30A4]]]
           [[[0x30A2; 0x30A4]]; [[0x30D0; 0x30A4]]; [[0x30A2; 0x30A4]]]).
  apply perm_swap.
Defined.

(** Scenario D: readings あい, あい and ばいおりん give the two-element list
    あい, ばいおりん. *)
Example extract_words_scenario_D :
  extract_words [[[0x3042; 0x3044]]; [[0x3042; 0x3044]];
                 [[0x3070; 0x3044; 0x304A; 0x308A; 0x3093]]]
  = Some [[0x3042; 0x3044]; [0x3070; 0x3044; 0x304A; 0x308A; 0x3093]].
Proof. vm_compute. reflexivity. Qed.

(** ** UTF-8 *)

Ltac div_mod_lia := Z.div_mod_to_equations; lia.

(** The digits in base 64 the encoder takes a code point apart into. *)
Lemma utf8_digits (c : Z) :
  0 ≤ c →
  0 ≤ c `mod` 0x40 < 0x40 ∧ 0 ≤ (c / 0x40) `mod` 0x40 < 0x40 ∧
  0 ≤ (c / 0x1000) `mod` 0x40 < 0x40 ∧
  c = c / 0x40 * 0x40 + c `mod` 0x40 ∧
  c = c / 0x1000 * 0x1000 + (c / 0x40) `mod` 0x40 * 0x40 + c `mod` 0x40 ∧
  c = c / 0x40000 * 0x40000 + (c / 0x1000) `mod` 0x40 * 0x1000
      + (c / 0x40) `mod` 0x40 * 0x40 + c `mod` 0x40.
Proof. intros Hc. split_and!; div_mod_lia. Qed.

(** The decoder, by the length the lead byte announces. *)
Lemma utf8_decode_1 (b0 : Z) (r : list Z) :
  0 ≤ b0 < 0x80 → utf8_decode (b0 :: r) = (b0 ::.) <$> utf8_decode r.
Proof. intros. cbn [utf8_decode]. by rewrite decide_True. Qed.

Lemma utf8_decode_2 (b0 b1 : Z) (r : list Z) :
  0xC2 ≤ b0 < 0xE0 → is_cont b1 →
  utf8_decode (b0 :: b1 :: r) = ((b0 - 0xC0) * 0x40 + (b1 - 0x80) ::.) <$> utf8_decode r.
Proof.
  intros. cbn [utf8_decode].
  destruct (decide (0 ≤ b0 < 0x80)); [lia|]. by rewrite decide_True.
Qed.

Lemma utf8_decode_3 (b0 b1 b2 : Z) (r : list Z) :
  0xE0 ≤ b0 < 0xF0 → is_cont b1 → is_cont b2 →
  0x800 ≤ (b0 - 0xE0) * 0x1000 + (b1 - 0x80) * 0x40 + (b2 - 0x80) →
  ¬ 0xD800 ≤ (b0 - 0xE0) * 0x1000 + (b1 - 0x80) * 0x40 + (b2 - 0x80) ≤ 0xDFFF →
  utf8_decode (b0 :: b1 :: b2 :: r)
  = ((b0 - 0xE0) * 0x1000 + (b1 - 0x80) * 0x40 + (b2 - 0x80) ::.) <$> utf8_decode r.
Proof.
  intros. cbn [utf8_decode].
  destruct (decide (0 ≤ b0 < 0x80)); [lia|].
  destruct (decide (0xC2 ≤ b0 < 0xE0 ∧ is_cont b1)); [lia|].
  rewrite decide_True by done. cbn zeta. by rewrite decide_True.
Qed.

Lemma utf8_decode_4 (b0 b1 b2 b3 : Z) (r : list Z) :
  0xF0 ≤ b0 < 0xF8 → is_cont b1 → is_cont b2 → is_cont b3 →
  0x10000 ≤ (b0 - 0xF0) * 0x40000 + (b1 - 0x80) * 0x1000
            + (b2 - 0x80) * 0x40 + (b3 - 0x80) ≤ 0x10FFFF →
  utf8_decode (b0 :: b1 :: b2 :: b3 :: r)
  = ((b0 - 0xF0) * 0x40000 + (b1 - 0x80) * 0x1000
     + (b2 - 0x80) * 0x40 + (b3 - 0x80) ::.) <$> utf8_decode r.
Proof.
  intros. cbn [utf8_decode].
  destruct (decide (0 ≤ b0 < 0x80)); [lia|].
  destruct (decide (0xC2 ≤ b0 < 0xE0 ∧ is_cont b1)); [lia|].
  destruct (decide (0xE0 ≤ b0 < 0xF0 ∧ is_cont b1 ∧ is_cont b2)); [lia|].
  rewrite decide_True by done. cbn zeta. by rewrite decide_True.
Qed.

(** Decoding undoes the encoding of one character, whatever follows. *)
Lemma utf8_decode_encode_char (c : Z) (bs rest : list Z) :
  utf8_encode_char c = Some bs →
  utf8_decode (bs ++ rest) = (c ::.) <$> utf8_decode rest.
Proof.
  unfold utf8_encode_char. intros H.
  repeat case_decide; simplify_eq; cbn [app].
  - by apply utf8_decode_1.
  - destruct (utf8_digits c) as (? & _ & _ & ? & _); [lia|].
    assert (2 ≤ c / 0x40 < 0x20) by div_mod_lia.
    set (d0 := c `mod` 0x40) in *. set (d1 := c / 0x40) in *.
    clearbody d0 d1. subst c.
    rewrite utf8_decode_2 by (unfold is_cont; lia). do 2 f_equal. lia.
  - destruct (utf8_digits c) as (? & ? & _ & _ & ? & _); [lia|].
    assert (0 ≤ c / 0x1000 < 0x10) by div_mod_lia.
    set (d0 := c `mod` 0x40) in *. set (d1 := (c / 0x40) `mod` 0x40) in *.
    set (d2 := c / 0x1000) in *.
    clearbody d0 d1 d2. subst c.
    rewrite utf8_decode_3 by (unfold is_cont; lia). do 2 f_equal. lia.
  - destruct (utf8_digits c) as (? & ? & ? & _ & _ & ?); [lia|].
    assert (0 ≤ c / 0x40000 < 0x8) by div_mod_lia.
    set (d0 := c `mod` 0x40) in *. set (d1 := (c / 0x40) `mod` 0x40) in *.
    set (d2 := (c / 0x1000) `mod` 0x40) in *. set (d3 := c / 0x40000) in *.
    clearbody d0 d1 d2 d3. subst c.
    rewrite utf8_decode_4 by (unfold is_cont; lia). do 2 f_equal. lia.
Qed.

Lemma utf8_decode_encode (text : str) (bs : list Z) :
  utf8_encode text = Some bs → utf8_decode bs = Some text.
Proof.
  unfold utf8_encode. revert bs.
  induction text as [|c text IH]; intros bs H; simplify_option_eq; [done|].
  erewrite utf8_decode_encode_char by done. by erewrite IH.
Qed.

(** Every character apart from the surrogates is encoded. *)
Lemma utf8_encode_total (text : str) :
  Forall (λ c, 0 ≤ c ≤ 0x10FFFF ∧ ¬ 0xD800 ≤ c ≤ 0xDFFF) text →
  is_Some (utf8_encode text).
Proof.
  intros Hall. unfold utf8_encode.
  assert (is_Some (mapM utf8_encode_char text)) as [encoded ->]; [|by eexists].
  apply mapM_is_Some. eapply Forall_impl; [done|]. intros c Hc. simpl in Hc.
  unfold compose, utf8_encode_char. repeat case_decide; try (by eexists); exfalso; lia.
Qed.

(** ** Lines *)

Lemma split_lines_from_line (cur w rest : str) :
  0x0A ∉ w →
  split_lines_from cur (w ++ 0x0A :: rest) = (cur ++ w) :: split_lines_from [] rest.
Proof.
  revert cur. induction w as [|c w IH]; intros cur Hw; cbn [app split_lines_from].
  - rewrite decide_True by done. by rewrite app_nil_r.
  - apply not_elem_of_cons in Hw as [Hc Hw].
    rewrite decide_False by done. rewrite IH by done. by rewrite <- app_assoc.
Qed.

(** One line per word, each closed by its line feed, splits back into
    the words, with no line after the last one. *)
Lemma split_lines_words (words : list str) :
  Forall (λ w, 0x0A ∉ w) words →
  split_lines (concat ((λ word, word ++ [0x0A]) <$> words)) = words.
Proof.
  unfold split_lines. induction 1 as [|w words Hw _ IH]; [done|].
  cbn [fmap list_fmap concat]. rewrite <- app_assoc. cbn [app].
  rewrite split_lines_from_line by done. by rewrite IH.
Qed.

(** ** The gzip member *)

Lemma length_le32 (n : Z) : length (le32 n) = 4%nat.
Proof. reflexivity. Qed.

Lemma le32_inj (m n : Z) :
  0 ≤ m < 0x100000000 → 0 ≤ n < 0x100000000 → le32 m = le32 n → m = n.
Proof. unfold le32. intros Hm Hn [= H0 H1 H2 H3]. div_mod_lia. Qed.

(** The header is twenty bytes, with the clock in bytes 4 to 7. *)
Lemma gzip_header_layout (mtime : Z) :
  take 4 (gzip_header mtime) = [0x1F; 0x8B; 0x08; 0x08] ∧
  take 4 (drop 4 (gzip_header mtime)) = le32 mtime ∧
  drop 8 (gzip_header mtime) = [0x02; 0xFF] ++ gzip_fname ++ [0x00].
Proof. done. Qed.

Section Member.
Variable deflate : list Z → list Z.
Variable crc32 : list Z → Z.

Lemma gzip_member_layout (mtime : Z) (data : list Z) :
  take 4 (gzip_member deflate crc32 mtime data) = [0x1F; 0x8B; 0x08; 0x08] ∧
  take 4 (drop 4 (gzip_member deflate crc32 mtime data)) = le32 mtime ∧
  drop 8 (gzip_member deflate crc32 mtime data)
  = [0x02; 0xFF] ++ gzip_fname ++ [0x00] ++ deflate data ++ gzip_trailer crc32 data.
Proof. done. Qed.

Lemma write_wordlist_Some (now : Z) (words : list str) :
  0 ≤ now < 0x100000000 →
  Forall (Forall (λ c, 0 ≤ c ≤ 0x10FFFF ∧ ¬ 0xD800 ≤ c ≤ 0xDFFF)) words →
  ∃ data, utf8_encode (concat ((λ word, word ++ [0x0A]) <$> words)) = Some data ∧
          write_wordlist deflate crc32 now words
          = Some (gzip_member deflate crc32 now data).
Proof.
  intros Hnow Hwords. unfold write_wordlist. rewrite decide_True by done.
  destruct (utf8_encode_total (concat ((λ word, word ++ [0x0A]) <$> words)))
    as [data Hdata]; [|rewrite Hdata; by exists data].
  apply Forall_concat, Forall_fmap. eapply Forall_impl; [done|].
  intros w Hw. simpl. apply Forall_app. split; [done|].
  repeat constructor; lia.
Qed.
End Member.

Lemma allowed_scalar (word : str) :
  Forall (λ ch, ch ∈ ALLOWED_HIRAGANA) word →
  Forall (λ c, 0 ≤ c ≤ 0x10FFFF ∧ ¬ 0xD800 ≤ c ≤ 0xDFFF) word ∧ 0x0A ∉ word.
Proof.
  intros Hall. split.
  - eapply Forall_impl; [done|]. intros c Hc. simpl in Hc.
    apply elem_of_ALLOWED_HIRAGANA in Hc. lia.
  - intros Hlf. rewrite Forall_forall in Hall.
    apply Hall, elem_of_ALLOWED_HIRAGANA in Hlf. lia.
Qed.

Lemma stored_inflate_deflate (data rest : list Z) :
  stored_inflate (stored_deflate data ++ rest) = Some (data, rest).
Proof.
  unfold stored_inflate, stored_deflate. cbn [app].
  rewrite decide_True by (rewrite length_app; lia).
  rewrite Nat2Z.id. by rewrite take_app_length, drop_app_length.
Qed.

(** ** The serialiser *)

(** C3, as the specification states it, fails: whatever the compressor
    and the checksum, two runs one second apart on the word list [あい]
    do not write the same bytes. *)
Lemma write_wordlist_embeds_clock :
  ¬ ∃ (deflate : list Z → list Z) (crc32 : list Z → Z),
      write_wordlist deflate crc32 1700000000 [[0x3042; 0x3044]]
      = write_wordlist deflate crc32 1700000001 [[0x3042; 0x3044]].
Proof.
  intros (deflate & crc32 & H).
  assert (Hscalar : Forall (Forall (λ c, 0 ≤ c ≤ 0x10FFFF ∧ ¬ 0xD800 ≤ c ≤ 0xDFFF))
                           [[0x3042; 0x3044]]) by (repeat constructor; lia).
  destruct (write_wordlist_Some deflate crc32 1700000000 _ ltac:(lia) Hscalar)
    as (data1 & _ & E1).
  destruct (write_wordlist_Some deflate crc32 1700000001 _ ltac:(lia) Hscalar)
    as (data2 & _ & E2).
  rewrite E1, E2 in H. apply (inj Some) in H.
  destruct (gzip_member_layout deflate crc32 1700000000 data1) as (_ & Hb1 & _).
  destruct (gzip_member_layout deflate crc32 1700000001 data2) as (_ & Hb2 & _).
  rewrite H, Hb2 in Hb1. vm_compute in Hb1. discriminate Hb1.
Qed.

Section Serializer_properties.
Variable deflate : list Z → list Z.
Variable crc32 : list Z → Z.

(** C3, amended: for a fixed word list, two runs write artifacts that
    agree on every byte but the four of the gzip header's MTIME field,
    bytes 4 to 7, which hold the clock of the run; the artifacts are
    the same exactly when the two clocks read the same second. *)
Theorem write_wordlist_stable_up_to_mtime (now1 now2 : Z) (words : list str) :
  0 ≤ now1 < 0x100000000 → 0 ≤ now2 < 0x100000000 →
  Forall (Forall (λ ch, ch ∈ ALLOWED_HIRAGANA)) words →
  ∃ out1 out2,
    write_wordlist deflate crc32 now1 words = Some out1 ∧
    write_wordlist deflate crc32 now2 words = Some out2 ∧
    take 4 out1 = take 4 out2 ∧ drop 8 out1 = drop 8 out2 ∧
    take 4 (drop 4 out1) = le32 now1 ∧ take 4 (drop 4 out2) = le32 now2 ∧
    (out1 = out2 ↔ now1 = now2).
Proof.
  intros H1 H2 Hwords.
  assert (Hscalar : Forall (Forall (λ c, 0 ≤ c ≤ 0x10FFFF ∧ ¬ 0xD800 ≤ c ≤ 0xDFFF)) words).
  { eapply Forall_impl; [done|]. intros w Hw. by apply allowed_scalar. }
  destruct (write_wordlist_Some deflate crc32 now1 words H1 Hscalar) as (data & Hdata & ->).
  destruct (write_wordlist_Some deflate crc32 now2 words H2 Hscalar) as (data' & Hdata' & ->).
  assert (data' = data) as -> by congruence.
  do 2 eexists. split; [done|]. split; [done|].
  destruct (gzip_member_layout deflate crc32 now1 data) as (Ha1 & Hb1 & Hc1).
  destruct (gzip_member_layout deflate crc32 now2 data) as (Ha2 & Hb2 & Hc2).
  split_and!; [congruence..|].
  split; [|by intros ->].
  intros Heq. apply le32_inj; [done..|]. rewrite <- Hb1, <- Hb2. by rewrite Heq.
Qed.
End Serializer_properties.

Lemma write_wordlist_stable_up_to_mtime_witness :
  ∃ out1 out2,
    write_wordlist stored_deflate (λ _, 0) 1700000000 [[0x3042; 0x3044]] = Some out1 ∧
    write_wordlist stored_deflate (λ _, 0) 1700000001 [[0x3042; 0x3044]] = Some out2 ∧
    take 4 out1 = take 4 out2 ∧ drop 8 out1 = drop 8 out2 ∧
    take 4 (drop 4 out1) = le32 1700000000 ∧ take 4 (drop 4 out2) = le32 1700000001 ∧
    (out1 = out2 ↔ 1700000000 = 1700000001).
Proof.
  apply (write_wordlist_stable_up_to_mtime stored_deflate (λ _, 0)
           1700000000 1700000001 [[0x3042; 0x3044]]); [lia|lia|].
  repeat constructor; apply elem_of_ALLOWED_HIRAGANA; lia.
Defined.

(** ** The round trip *)

Section Round_trip.
Variable deflate : list Z → list Z.
Variable inflate : list Z → option (list Z * list Z).
Variable crc32 : list Z → Z.

(** What makes the pair a codec: inflating a deflate stream gives the
    data back, and the bytes behind the stream. *)
Hypothesis inflate_deflate :
  ∀ data rest, inflate (deflate data ++ rest) = Some (data, rest).

Lemma gunzip_header (t0 t1 t2 t3 xfl os : Z) (named : list Z) :
  gunzip inflate crc32
    (0x1F :: 0x8B :: 0x08 :: 0x08 :: t0 :: t1 :: t2 :: t3 :: xfl :: os :: named)
  = body ← skip_cstring named;
    '(data, rest) ← inflate body;
    if decide (rest = gzip_trailer crc32 data) then Some data else None.
Proof. reflexivity. Qed.

Lemma gunzip_gzip_member (mtime : Z) (data : list Z) :
  gunzip inflate crc32 (gzip_member deflate crc32 mtime data) = Some data.
Proof.
  unfold gzip_member, gzip_header, le32.
  generalize (mtime `mod` 0x100) ((mtime / 0x100) `mod` 0x100)
             ((mtime / 0x10000) `mod` 0x100) ((mtime / 0x1000000) `mod` 0x100).
  intros t0 t1 t2 t3.
  set (trailer := gzip_trailer crc32 data).
  assert (Hnamed : skip_cstring ((gzip_fname ++ [0x00]) ++ deflate data ++ trailer)
                   = Some (deflate data ++ trailer)) by reflexivity.
  cbn [app]. rewrite gunzip_header, Hnamed. cbn [mbind option_bind].
  rewrite inflate_deflate. cbn [mbind option_bind]. by rewrite decide_True.
Qed.

Lemma read_write_wordlist (now : Z) (words : list str) :
  0 ≤ now < 0x100000000 →
  Forall (Forall (λ c, 0 ≤ c ≤ 0x10FFFF ∧ ¬ 0xD800 ≤ c ≤ 0xDFFF)) words →
  Forall (λ w, 0x0A ∉ w) words →
  ∃ bytes, write_wordlist deflate crc32 now words = Some bytes ∧
           read_wordlist inflate crc32 bytes = Some words.
Proof.
  intros Hnow Hscalar Hlf.
  destruct (write_wordlist_Some deflate crc32 now words Hnow Hscalar) as (data & Hdata & ->).
  eexists. split; [done|]. unfold read_wordlist.
  rewrite gunzip_gzip_member. cbn [mbind option_bind].
  rewrite (utf8_decode_encode _ _ Hdata). cbn [mbind option_bind].
  by rewrite split_lines_words.
Qed.

(** C9: round trip.  What [write_wordlist] writes for a list of words
    over the allowed alphabet decompresses to the UTF-8 encoding of the
    words, each followed by one line feed and nothing after the last,
    and splitting that text on line terminators gives the list back. *)
Theorem write_wordlist_round_trip (now : Z) (words : list str) :
  0 ≤ now < 0x100000000 →
  Forall (Forall (λ ch, ch ∈ ALLOWED_HIRAGANA)) words →
  ∃ bytes data,
    write_wordlist deflate crc32 now words = Some bytes ∧
    gunzip inflate crc32 bytes = Some data ∧
    utf8_decode data = Some (concat ((λ word, word ++ [0x0A]) <$> words)) ∧
    read_wordlist inflate crc32 bytes = Some words.
Proof.
  intros Hnow Hwords.
  assert (Hscalar : Forall (Forall (λ c, 0 ≤ c ≤ 0x10FFFF ∧ ¬ 0xD800 ≤ c ≤ 0xDFFF)) words).
  { eapply Forall_impl; [done|]. intros w Hw. by apply allowed_scalar. }
  assert (Hlf : Forall (λ w, 0x0A ∉ w) words).
  { eapply Forall_impl; [exact Hwords|]. intros w Hw. exact (proj2 (allowed_scalar w Hw)). }
  destruct (read_write_wordlist now words Hnow Hscalar Hlf) as (bytes & Hw & Hr).
  destruct (write_wordlist_Some deflate crc32 now words Hnow Hscalar) as (data & Hdata & Hw').
  exists bytes, data. split; [done|].
  assert (bytes = gzip_member deflate crc32 now data) as -> by congruence.
  split_and!; [apply gunzip_gzip_member|by apply utf8_decode_encode|done].
Qed.
End Round_trip.

Lemma write_wordlist_round_trip_witness :
  ∃ bytes data,
    write_wordlist stored_deflate (λ _, 0) 1700000000
      [[0x3042; 0x3044]; [0x3070; 0x3044; 0x304A; 0x308A; 0x3093]] = Some bytes ∧
    gunzip stored_inflate (λ _, 0) bytes = Some data ∧
    utf8_decode data
    = Some (concat ((λ word, word ++ [0x0A])
                      <$> [[0x3042; 0x3044]; [0x3070; 0x3044; 0x304A; 0x308A; 0x3093]])) ∧
    read_wordlist stored_inflate (λ _, 0) bytes
    = Some [[0x3042; 0x3044]; [0x3070; 0x3044; 0x304A; 0x308A; 0x3093]].
Proof.
  apply (write_wordlist_round_trip stored_deflate stored_inflate (λ _, 0)
           stored_inflate_deflate 1700000000
           [[0x3042; 0x3044]; [0x3070; 0x3044; 0x304A; 0x308A; 0x3093]]); [lia|].
  repeat constructor; apply elem_of_ALLOWED_HIRAGANA; lia.
Defined.

(** ** The pipeline *)


(** * Further properties *)

(** ** katakana_to_hiragana and normalize_hiragana, character by character *)

Lemma katakana_to_hiragana_Forall2 (text : str) :
  ∃ result, katakana_to_hiragana text = Some result ∧
            Forall2 (λ ch h, convert_char ch = Some h) text result.
Proof.
  destruct (katakana_to_hiragana_total text) as [result E]. exists result.
  split; [done|]. by apply mapM_Some_1.
Qed.

(** What the dispatch makes of a character, by where it lies. *)
Lemma convert_char_image (ch h : Z) :
  convert_char ch = Some h →
  (0x30A1 ≤ ch ≤ 0x30FA ∧ 0x3041 ≤ h ≤ 0x3096) ∨
  (¬ 0x30A1 ≤ ch ≤ 0x30FA ∧ h = ch).
Proof.
  intros H.
  destruct (convert_char_cases ch) as [(h' & E & E')|[(_ & ? & E')|(E & ? & E')]];
    rewrite E' in H; injection H as <-.
  - left. rewrite special_lookup, !elem_of_cons, elem_of_nil in E.
    repeat destruct E as [[= -> ->]|E]; lia.
  - left. lia.
  - right. split; [|done]. intros Hr.
    destruct (decide (0x30F7 ≤ ch)) as [Hhi|Hlo]; [|lia].
    assert (is_Some (special !! ch)) as [? Hs]; [|congruence].
    assert (ch = 0x30F7 ∨ ch = 0x30F8 ∨ ch = 0x30F9 ∨ ch = 0x30FA) as Hch by lia.
    destruct Hch as [-> | [-> | [-> | ->]]]; by eexists.
Qed.

(** X1: [katakana_to_hiragana] gives one character for each character
    of its input, leaves every character outside U+30A1 .. U+30FA where
    and as it is, and puts a hiragana of U+3041 .. U+3096 in the place of
    every character of U+30A1 .. U+30FA. *)
Theorem katakana_to_hiragana_pointwise (text : str) :
  ∃ result, katakana_to_hiragana text = Some result ∧
    length result = length text ∧
    ∀ (i : nat) ch, text !! i = Some ch →
      ∃ h, result !! i = Some h ∧
           if decide (0x30A1 ≤ ch ≤ 0x30FA) then 0x3041 ≤ h ≤ 0x3096 else h = ch.
Proof.
  destruct (katakana_to_hiragana_Forall2 text) as (result & E & HF).
  exists result. split; [done|]. split; [symmetry; by eapply Forall2_length|].
  intros i ch Hi.
  destruct (Forall2_lookup_l _ _ _ _ _ HF Hi) as (h & Hh & Hc).
  exists h. split; [done|].
  apply convert_char_image in Hc. case_decide; lia.
Qed.

(** X2: both functions work character by character: the result on a
    concatenation is the concatenation of the results. *)
Theorem normalize_hiragana_app (s t : str) :
  ∃ ks kt hs ht,
    katakana_to_hiragana s = Some ks ∧ katakana_to_hiragana t = Some kt ∧
    katakana_to_hiragana (s ++ t) = Some (ks ++ kt) ∧
    normalize_hiragana s = Some hs ∧ normalize_hiragana t = Some ht ∧
    normalize_hiragana (s ++ t) = Some (hs ++ ht).
Proof.
  destruct (katakana_to_hiragana_Forall2 s) as (ks & Es & Hs).
  destruct (katakana_to_hiragana_Forall2 t) as (kt & Et & Ht).
  assert (Est : katakana_to_hiragana (s ++ t) = Some (ks ++ kt)).
  { apply mapM_Some_2. by apply Forall2_app. }
  exists ks, kt. do 2 eexists. split_and!; [done..| | |].
  - unfold normalize_hiragana. rewrite Es. reflexivity.
  - unfold normalize_hiragana. rewrite Et. reflexivity.
  - unfold normalize_hiragana. rewrite Est. cbn [mbind option_bind].
    by rewrite filter_app.
Qed.

(** X3: which characters survive.  The length of the normalised string
    is the number of characters of the input in U+3041 .. U+309E,
    U+30A1 .. U+30FA or equal to U+30FC: every other character is
    dropped, and none of these is. *)
Theorem normalize_hiragana_length (s : str) :
  ∃ hira, normalize_hiragana s = Some hira ∧
    length hira
    = length (filter (λ ch, 0x3041 ≤ ch ≤ 0x309E ∨ 0x30A1 ≤ ch ≤ 0x30FA ∨ ch = 0x30FC) s).
Proof.
  destruct (katakana_to_hiragana_Forall2 s) as (ks & Es & HF).
  unfold normalize_hiragana. rewrite Es. eexists. split; [reflexivity|].
  clear Es. induction HF as [|ch h s ks Hc _ IH]; [done|].
  rewrite !filter_cons.
  apply convert_char_image in Hc.
  destruct (decide (h ∈ ALLOWED_HIRAGANA)) as [Hin|Hout];
    rewrite elem_of_ALLOWED_HIRAGANA in *; case_decide; cbn [length]; lia.
Qed.

(** X4: [katakana_to_hiragana] leaves no character of U+30A1 .. U+30FA
    in its result, and applied to its result it changes nothing. *)
Theorem katakana_to_hiragana_idempotent (text : str) :
  ∃ result, katakana_to_hiragana text = Some result ∧
    Forall (λ h, ¬ 0x30A1 ≤ h ≤ 0x30FA) result ∧
    katakana_to_hiragana result = Some result.
Proof.
  destruct (katakana_to_hiragana_Forall2 text) as (result & E & HF).
  exists result. split; [done|].
  assert (Hout : Forall (λ h, ¬ 0x30A1 ≤ h ≤ 0x30FA) result).
  { clear E. induction HF as [|ch h s ks Hc _ IH]; constructor; [|done].
    apply convert_char_image in Hc. lia. }
  split; [done|]. apply mapM_Some_2.
  clear E HF. induction Hout as [|h result Hh _ IH]; constructor; [|done].
  destruct (convert_char_cases h) as [(h' & E & _)|[(_ & ? & _)|(_ & _ & E')]]; [|lia|done].
  apply special_lookup_bounds in E. lia.
Qed.

(** ** The reading of a row *)

Lemma lstrip_spec (s : str) :
  ∃ ws, s = ws ++ lstrip s ∧ Forall (λ c, isspace c = true) ws ∧
        ∀ c, head (lstrip s) = Some c → isspace c = false.
Proof.
  induction s as [|c s (ws & Hs & Hws & Hhead)]; cbn [lstrip].
  - exists []. by repeat split.
  - destruct (isspace c) eqn:Hc.
    + exists (c :: ws). split; [cbn [app]; congruence|]. split; [by constructor|done].
    + exists []. split; [done|]. split; [constructor|]. by intros ? [= <-].
Qed.

Lemma rstrip_spec (s : str) :
  ∃ ws, s = rstrip s ++ ws ∧ Forall (λ c, isspace c = true) ws ∧
        ∀ c, last (rstrip s) = Some c → isspace c = false.
Proof.
  unfold rstrip. destruct (lstrip_spec (reverse s)) as (ws & Hs & Hws & Hhead).
  exists (reverse ws). split_and!.
  - rewrite <- reverse_app, <- Hs. by rewrite reverse_involutive.
  - by apply Forall_reverse.
  - intros c. rewrite last_reverse. apply Hhead.
Qed.

(** [strip] cuts white space off both ends, and all of it. *)
Lemma strip_spec (s : str) :
  ∃ pre post, s = pre ++ strip s ++ post ∧
    Forall (λ c, isspace c = true) pre ∧ Forall (λ c, isspace c = true) post ∧
    ∀ c, head (strip s) = Some c ∨ last (strip s) = Some c → isspace c = false.
Proof.
  unfold strip.
  destruct (lstrip_spec s) as (pre & Hs & Hpre & Hhead).
  destruct (rstrip_spec (lstrip s)) as (post & Ht & Hpost & Hlast).
  exists pre, post. split_and!; [congruence|done..|].
  intros c [Hc|Hc]; [|by apply Hlast].
  apply Hhead.
  assert (Hc' : head (rstrip (lstrip s) ++ post) = Some c)
    by (apply head_app_Some; by left).
  by rewrite <- Ht in Hc'.
Qed.

Lemma strip_no_space (s : str) :
  Forall (λ c, isspace c = false) s → strip s = s.
Proof.
  intros Hs.
  assert (Hl : ∀ t : str, Forall (λ c, isspace c = false) t → lstrip t = t).
  { intros t Ht. destruct Ht as [|c t Hc _]; [done|]. cbn [lstrip]. by rewrite Hc. }
  unfold strip, rstrip. rewrite (Hl s Hs).
  rewrite Hl by (by apply Forall_reverse). apply reverse_involutive.
Qed.

Lemma allowed_no_space (ch : Z) : ch ∈ ALLOWED_HIRAGANA → isspace ch = false.
Proof.
  rewrite elem_of_ALLOWED_HIRAGANA. intros Hch.
  unfold isspace. apply bool_decide_eq_false. lia.
Qed.

(** X5: the reading taken from a row is one of its fields without the
    white space at its two ends: it neither begins nor ends with a
    white-space character, and only white space was cut off. *)
Theorem row_reading_trimmed (row : list str) (reading : str) :
  row_reading row = Some reading →
  (∃ field pre post, field ∈ row ∧ field = pre ++ reading ++ post ∧
     Forall (λ c, isspace c = true) pre ∧ Forall (λ c, isspace c = true) post) ∧
  (∀ c, head reading = Some c ∨ last reading = Some c → isspace c = false).
Proof.
  intros Hr.
  assert (∃ field, field ∈ row ∧ reading = strip field) as (field & Hin & ->).
  { destruct row as [|f0 fields]; [done|].
    destruct ((f0 :: fields) !! 11%nat) as [f11|] eqn:E11.
    - erewrite row_reading_long in Hr by done. injection Hr as <-.
      destruct (truthy f11).
      + exists f11. split; [by eapply list_elem_of_lookup_2|done].
      + exists f0. split; [apply list_elem_of_here|done].
    - erewrite row_reading_short in Hr by done. injection Hr as <-.
      exists f0. split; [apply list_elem_of_here|done]. }
  destruct (strip_spec field) as (pre & post & Hf & Hpre & Hpost & Hends).
  split; [|done]. by exists field, pre, post.
Qed.

Lemma row_reading_trimmed_witness :
  (∃ field pre post, field ∈ [[0x20; 0x30A2; 0x30A4; 0x3000]] ∧
     field = pre ++ [0x30A2; 0x30A4] ++ post ∧
     Forall (λ c, isspace c = true) pre ∧ Forall (λ c, isspace c = true) post) ∧
  (∀ c, head [0x30A2; 0x30A4] = Some c ∨ last [0x30A2; 0x30A4] = Some c →
        isspace c = false).
Proof.
  apply (row_reading_trimmed [[0x20; 0x30A2; 0x30A4; 0x3000]] [0x30A2; 0x30A4]).
  reflexivity.
Defined.

(** ** What extract_words keeps *)

(** X6: the result holds exactly the non-empty normalised readings of
    the rows: none is lost, and nothing else is added. *)
Theorem extract_words_elem (rows : list (list str)) :
  ∃ words, extract_words rows = Some words ∧
    ∀ hira, hira ∈ words ↔
      hira ≠ [] ∧ ∃ row reading, row ∈ rows ∧ row_reading row = Some reading ∧
                                 normalize_hiragana reading = Some hira.
Proof.
  unfold extract_words.
  destruct (extract_loop_elem rows ∅) as (seen & -> & Hseen).
  eexists. split; [reflexivity|]. intros hira.
  rewrite sorted_Permutation, elem_of_elements, Hseen.
  split; [|by right]. by intros [[]%not_elem_of_empty|?].
Qed.

Lemma extract_loop_same_rows (rows rows' : list (list str)) (seen : gset str) :
  (∀ row, row ∈ rows ↔ row ∈ rows') →
  extract_loop seen rows = extract_loop seen rows'.
Proof.
  intros Hsame.
  destruct (extract_loop_elem rows seen) as (s & -> & Hs).
  destruct (extract_loop_elem rows' seen) as (s' & -> & Hs').
  f_equal. apply set_eq. intros hira. rewrite Hs, Hs'.
  by setoid_rewrite Hsame.
Qed.

(** X7: the result depends only on which rows occur: neither their
    order nor how often a row is repeated changes it. *)
Theorem extract_words_same_rows (rows rows' : list (list str)) :
  (∀ row, row ∈ rows ↔ row ∈ rows') →
  ∃ words, extract_words rows = Some words ∧ extract_words rows' = Some words.
Proof.
  intros Hsame. unfold extract_words.
  rewrite <- (extract_loop_same_rows rows rows' ∅ Hsame).
  destruct (extract_loop_elem rows ∅) as (seen & -> & _). by eexists.
Qed.

Lemma extract_words_same_rows_witness :
  ∃ words,
    extract_words [[[0x30D0; 0x30A4]]; [[0x30A2; 0x30A4]]] = Some words ∧
    extract_words [[[0x30A2; 0x30A4]]; [[0x30D0; 0x30A4]]; [[0x30A2; 0x30A4]]] = Some words.
Proof.
  apply (extract_words_same_rows
           [[[0x30D0; 0x30A4]]; [[0x30A2; 0x30A4]]]
           [[[0x30A2; 0x30A4]]; [[0x30D0; 0x30A4]]; [[0x30A2; 0x30A4]]]).
  intros row. rewrite !elem_of_cons, elem_of_nil. tauto.
Defined.

Lemma extract_step_size (seen seen' : gset str) (row : list str) :
  extract_step seen row = Some seen' → (size seen' ≤ S (size seen))%nat.
Proof.
  unfold extract_step. case_decide; [intros [= <-]; lia|].
  destruct (row_reading row) as [reading|]; [|done]. cbn [mbind option_bind].
  destruct (normalize_hiragana reading) as [hira|]; [|done]. cbn [mbind option_bind].
  destruct (truthy hira); intros [= <-]; [|lia].
  rewrite size_union_alt, size_singleton.
  assert (size (seen ∖ {[hira]}) ≤ size seen)%nat; [|lia].
  apply subseteq_size. by intros word [Hword _]%elem_of_difference.
Qed.

Lemma extract_loop_size (rows : list (list str)) (seen seen' : gset str) :
  extract_loop seen rows = Some seen' → (size seen' ≤ size seen + length rows)%nat.
Proof.
  revert seen. induction rows as [|row rows IH]; intros seen; cbn [extract_loop length].
  - intros [= <-]. lia.
  - destruct (extract_step seen row) as [seen1|] eqn:E1; [|done].
    cbn [mbind option_bind]. intros E. apply IH in E.
    apply extract_step_size in E1. lia.
Qed.

(** X8: the result has at most one word for each row. *)
Theorem extract_words_length (rows : list (list str)) :
  ∃ words, extract_words rows = Some words ∧ (length words ≤ length rows)%nat.
Proof.
  unfold extract_words.
  destruct (extract_loop_elem rows ∅) as (seen & E & _). rewrite E.
  eexists. split; [reflexivity|].
  rewrite sorted_Permutation. apply extract_loop_size in E.
  rewrite size_empty in E. exact E.
Qed.

(** X9: the result is empty exactly when no row has a reading that
    normalises to a non-empty string; in particular for no rows at
    all. *)
Theorem extract_words_empty (rows : list (list str)) :
  extract_words rows = Some [] ↔
  ∀ row reading hira, row ∈ rows → row_reading row = Some reading →
                      normalize_hiragana reading = Some hira → hira = [].
Proof.
  unfold extract_words.
  destruct (extract_loop_elem rows ∅) as (seen & -> & Hseen). cbn [mbind option_bind].
  split.
  - intros [= Hnil] row reading hira Hrow Hr Hn.
    destruct (decide (hira = [])) as [|Hne]; [done|exfalso].
    assert (hira ∈ sorted (elements seen)) as Hin.
    { rewrite sorted_Permutation, elem_of_elements, Hseen. right.
      split; [done|]. by exists row, reading. }
    rewrite Hnil in Hin. by apply elem_of_nil in Hin.
  - intros Hall. f_equal.
    destruct (sorted (elements seen)) as [|hira words] eqn:E; [done|exfalso].
    assert (hira ∈ sorted (elements seen)) as Hin by (rewrite E; apply list_elem_of_here).
    rewrite sorted_Permutation, elem_of_elements, Hseen in Hin.
    destruct Hin as [[]%not_elem_of_empty|(Hne & row & reading & ? & ? & ?)].
    eauto.
Qed.

Lemma row_reading_single (word : str) :
  Forall (λ ch, ch ∈ ALLOWED_HIRAGANA) word → row_reading [word] = Some word.
Proof.
  intros Hw. erewrite row_reading_short by done. f_equal.
  apply strip_no_space. eapply Forall_impl; [exact Hw|].
  intros ch. apply allowed_no_space.
Qed.

(** X10: the result is a fixed point of the extraction: given back as
    rows of one field each, the words come out as the same list. *)
Theorem extract_words_fixed_point (rows : list (list str)) :
  ∃ words, extract_words rows = Some words ∧
           extract_words ((λ word, [word]) <$> words) = Some words.
Proof.
  unfold extract_words.
  destruct (extract_loop_elem rows ∅) as (seen & -> & Hseen). cbn [mbind option_bind].
  eexists. split; [reflexivity|].
  destruct (extract_loop_elem ((λ word, [word]) <$> sorted (elements seen)) ∅)
    as (seen' & -> & Hseen'). cbn [mbind option_bind].
  assert (seen' = seen) as ->; [|done]. apply set_eq. intros hira.
  assert (Hword : ∀ word, word ∈ seen →
            word ≠ [] ∧ row_reading [word] = Some word ∧
            normalize_hiragana word = Some word).
  { intros word [[]%not_elem_of_empty|(Hne & row & reading & _ & _ & Hn)]%Hseen.
    apply normalize_hiragana_allowed in Hn.
    auto using row_reading_single, normalize_hiragana_fixed. }
  rewrite Hseen'. split.
  - intros [[]%not_elem_of_empty|(_ & row & reading & Hrow & Hr & Hn)].
    apply list_elem_of_fmap in Hrow as (word & -> & Hin).
    rewrite sorted_Permutation, elem_of_elements in Hin.
    destruct (Hword word Hin) as (_ & Hr' & Hn'). congruence.
  - intros Hin. destruct (Hword hira Hin) as (Hne & Hr & Hn).
    right. split; [done|]. exists [hira], hira. split_and!; [|done..].
    apply list_elem_of_fmap. exists hira. split; [done|].
    by rewrite sorted_Permutation, elem_of_elements.
Qed.

(** ** What write_wordlist writes *)

Lemma utf8_encode_char_is_Some (c : Z) :
  is_Some (utf8_encode_char c) ↔ 0 ≤ c ≤ 0x10FFFF ∧ ¬ 0xD800 ≤ c ≤ 0xDFFF.
Proof.
  unfold utf8_encode_char. split.
  - intros [bs H]. repeat case_decide; simplify_eq; lia.
  - intros Hc. repeat case_decide; try (by eexists); exfalso; lia.
Qed.

Lemma utf8_encode_is_Some (text : str) :
  is_Some (utf8_encode text) ↔
  Forall (λ c, 0 ≤ c ≤ 0x10FFFF ∧ ¬ 0xD800 ≤ c ≤ 0xDFFF) text.
Proof.
  split; [|apply utf8_encode_total].
  unfold utf8_encode. intros [data H].
  destruct (mapM utf8_encode_char text) as [encoded|] eqn:E; [|done].
  assert (Hall : Forall (is_Some ∘ utf8_encode_char) text)
    by (apply mapM_is_Some; by eexists).
  eapply Forall_impl; [exact Hall|]. intros c Hc. by apply utf8_encode_char_is_Some.
Qed.

Lemma utf8_encode_Forall2 (text : str) (data : list Z) :
  utf8_encode text = Some data →
  ∃ encoded, Forall2 (λ c bs, utf8_encode_char c = Some bs) text encoded ∧
             data = concat encoded.
Proof.
  unfold utf8_encode. intros H.
  destruct (mapM utf8_encode_char text) as [encoded|] eqn:E; [|done].
  injection H as <-. exists encoded. split; [by apply mapM_Some_1|done].
Qed.

Lemma utf8_encode_allowed_length (word : str) (encoded : list (list Z)) :
  Forall (λ ch, ch ∈ ALLOWED_HIRAGANA) word →
  Forall2 (λ c bs, utf8_encode_char c = Some bs) word encoded →
  length (concat encoded) = (3 * length word)%nat.
Proof.
  intros Hw HF. induction HF as [|c bs word encoded Hc _ IH]; [done|].
  apply Forall_cons in Hw as [Hch Hw]. apply elem_of_ALLOWED_HIRAGANA in Hch.
  cbn [concat length]. rewrite length_app, IH by done.
  unfold utf8_encode_char in Hc. repeat case_decide; simplify_eq; try lia.
  cbn [length]. lia.
Qed.

Lemma utf8_encode_lines_length (words : list str) (encoded : list (list Z)) :
  Forall (Forall (λ ch, ch ∈ ALLOWED_HIRAGANA)) words →
  Forall2 (λ c bs, utf8_encode_char c = Some bs)
          (concat ((λ word, word ++ [0x0A]) <$> words)) encoded →
  length (concat encoded) = sum_list_with (λ word, 3 * length word + 1)%nat words.
Proof.
  intros Hwords. revert encoded.
  induction Hwords as [|word words Hword _ IH]; intros encoded HF.
  - by apply Forall2_nil_inv_l in HF as ->.
  - cbn [fmap list_fmap concat] in HF.
    apply Forall2_app_inv_l in HF as (k1 & k2 & HF1 & HF2 & ->).
    apply Forall2_app_inv_l in HF1 as (kw & klf & HFw & HFlf & ->).
    apply Forall2_cons_inv_l in HFlf as (bs & knil & Hlf & ->%Forall2_nil_inv_l & ->).
    injection Hlf as <-.
    rewrite !concat_app, !length_app. cbn [sum_list_with].
    rewrite (IH _ HF2), (utf8_encode_allowed_length _ _ Hword HFw).
    cbn [concat app length]. lia.
Qed.

(** X12: for words over the allowed alphabet the data that go through
    the compressor are three bytes for each character and one for each
    line feed. *)
Theorem write_wordlist_data_length
    (deflate : list Z → list Z) (crc32 : list Z → Z) (now : Z) (words : list str) :
  0 ≤ now < 0x100000000 →
  Forall (Forall (λ ch, ch ∈ ALLOWED_HIRAGANA)) words →
  ∃ data,
    write_wordlist deflate crc32 now words
    = Some (gzip_header now ++ deflate data ++ gzip_trailer crc32 data) ∧
    length data = sum_list_with (λ word, 3 * length word + 1)%nat words.
Proof.
  intros Hnow Hwords.
  destruct (write_wordlist_Some deflate crc32 now words Hnow) as (data & Hdata & Hw).
  { eapply Forall_impl; [exact Hwords|]. intros w Hw. exact (proj1 (allowed_scalar w Hw)). }
  exists data. split; [done|].
  apply utf8_encode_Forall2 in Hdata as (encoded & HF & ->).
  by apply utf8_encode_lines_length.
Qed.

Lemma write_wordlist_data_length_witness :
  ∃ data,
    write_wordlist stored_deflate (λ _, 0) 1700000000
      [[0x3042; 0x3044]; [0x3070; 0x3044; 0x304A; 0x308A; 0x3093]]
    = Some (gzip_header 1700000000 ++ stored_deflate data ++ gzip_trailer (λ _, 0) data) ∧
    length data
    = sum_list_with (λ word, 3 * length word + 1)%nat
        [[0x3042; 0x3044]; [0x3070; 0x3044; 0x304A; 0x308A; 0x3093]].
Proof.
  apply (write_wordlist_data_length stored_deflate (λ _, 0) 1700000000
           [[0x3042; 0x3044]; [0x3070; 0x3044; 0x304A; 0x308A; 0x3093]]); [lia|].
  repeat constructor; apply elem_of_ALLOWED_HIRAGANA; lia.
Defined.

Section Artifact_determines_words.
Variable deflate : list Z → list Z.
Variable inflate : list Z → option (list Z * list Z).
Variable crc32 : list Z → Z.
Hypothesis inflate_deflate :
  ∀ data rest, inflate (deflate data ++ rest) = Some (data, rest).

Lemma write_wordlist_clock (now : Z) (words : list str) (bytes : list Z) :
  write_wordlist deflate crc32 now words = Some bytes →
  0 ≤ now < 0x100000000 ∧ take 4 (drop 4 bytes) = le32 now.
Proof.
  unfold write_wordlist. case_decide as Hnow; [|done]. intros H. split; [done|].
  destruct (utf8_encode _) as [data|]; [|done]. injection H as <-.
  apply gzip_member_layout.
Qed.

(** X13: the artifact determines the word list and the clock: two calls
    that write the same bytes were given the same words, over the
    allowed alphabet, in the same second. *)
Theorem write_wordlist_inj (now1 now2 : Z) (words1 words2 : list str) (bytes : list Z) :
  Forall (Forall (λ ch, ch ∈ ALLOWED_HIRAGANA)) words1 →
  Forall (Forall (λ ch, ch ∈ ALLOWED_HIRAGANA)) words2 →
  write_wordlist deflate crc32 now1 words1 = Some bytes →
  write_wordlist deflate crc32 now2 words2 = Some bytes →
  words1 = words2 ∧ now1 = now2.
Proof.
  intros Hw1 Hw2 E1 E2.
  destruct (write_wordlist_clock _ _ _ E1) as [Hnow1 Hc1].
  destruct (write_wordlist_clock _ _ _ E2) as [Hnow2 Hc2].
  split; [|apply le32_inj; congruence].
  assert (Hread : ∀ now words, 0 ≤ now < 0x100000000 →
            Forall (Forall (λ ch, ch ∈ ALLOWED_HIRAGANA)) words →
            write_wordlist deflate crc32 now words = Some bytes →
            read_wordlist inflate crc32 bytes = Some words).
  { intros now words Hnow Hwords E.
    destruct (read_write_wordlist deflate inflate crc32 inflate_deflate now words Hnow)
      as (bytes' & E' & Hr).
    - eapply Forall_impl; [exact Hwords|]. intros w Hw. exact (proj1 (allowed_scalar w Hw)).
    - eapply Forall_impl; [exact Hwords|]. intros w Hw. exact (proj2 (allowed_scalar w Hw)).
    - congruence. }
  pose proof (Hread now1 words1 Hnow1 Hw1 E1) as R1.
  pose proof (Hread now2 words2 Hnow2 Hw2 E2) as R2.
  congruence.
Qed.
End Artifact_determines_words.

Lemma write_wordlist_inj_witness :
  [[0x3042; 0x3044]] = [[0x3042; 0x3044]] ∧ 1700000000 = 1700000000.
Proof.
  assert (Hallowed : Forall (Forall (λ ch, ch ∈ ALLOWED_HIRAGANA)) [[0x3042; 0x3044]])
    by (repeat constructor; apply elem_of_ALLOWED_HIRAGANA; lia).
  eapply (write_wordlist_inj stored_deflate stored_inflate (λ _, 0)
            stored_inflate_deflate 1700000000 1700000000
            [[0x3042; 0x3044]] [[0x3042; 0x3044]] _ Hallowed Hallowed);
    vm_compute; reflexivity.
Defined.


(** ** Trimming, scripts and the normaliser *)

Lemma convert_char_outside (ch : Z) :
  ¬ 0x30A1 ≤ ch ≤ 0x30FA → convert_char ch = Some ch.
Proof.
  intros Hout.
  destruct (convert_char_cases ch) as [(h & E & _)|[(_ & ? & _)|(_ & _ & E')]]; [|lia|done].
  apply special_lookup_bounds in E. lia.
Qed.

Lemma normalize_hiragana_cat (s t hs ht : str) :
  normalize_hiragana s = Some hs → normalize_hiragana t = Some ht →
  normalize_hiragana (s ++ t) = Some (hs ++ ht).
Proof.
  unfold normalize_hiragana.
  destruct (katakana_to_hiragana s) as [ks|] eqn:Es; [|done].
  destruct (katakana_to_hiragana t) as [kt|] eqn:Et; [|done].
  cbn [mbind option_bind]. intros [= <-] [= <-].
  assert (katakana_to_hiragana (s ++ t) = Some (ks ++ kt)) as ->.
  { apply mapM_Some_2, Forall2_app; by apply mapM_Some_1. }
  cbn [mbind option_bind]. by rewrite filter_app.
Qed.

Lemma normalize_hiragana_space (ws : str) :
  Forall (λ c, isspace c = true) ws → normalize_hiragana ws = Some [].
Proof.
  intros Hws.
  assert (Hout : Forall (λ c, ¬ 0x30A1 ≤ c ≤ 0x30FA ∧ c ∉ ALLOWED_HIRAGANA) ws).
  { eapply Forall_impl; [exact Hws|]. intros c Hc. cbn beta in Hc.
    unfold isspace in Hc. apply bool_decide_eq_true in Hc.
    rewrite elem_of_ALLOWED_HIRAGANA. lia. }
  unfold normalize_hiragana.
  assert (katakana_to_hiragana ws = Some ws) as ->.
  { apply mapM_Some_2. clear Hws.
    induction Hout as [|c ws [Hc _] _ IH]; constructor; [|done].
    by apply convert_char_outside. }
  cbn [mbind option_bind]. f_equal. clear Hws.
  induction Hout as [|c ws [_ Hc] _ IH]; [done|].
  by rewrite filter_cons_False.
Qed.

(** X15: trimming does not change what a field normalises to: the
    normaliser drops white space wherever it stands, so the word a row
    contributes is the normalisation of the field itself. *)
Theorem normalize_hiragana_strip (s : str) :
  normalize_hiragana (strip s) = normalize_hiragana s.
Proof.
  destruct (strip_spec s) as (pre & post & Hs & Hpre & Hpost & _).
  destruct (normalize_hiragana_total (strip s)) as [hira E].
  rewrite E. rewrite Hs at 1. symmetry.
  rewrite (normalize_hiragana_cat pre (strip s ++ post) [] (hira ++ []));
    [by rewrite app_nil_r|by apply normalize_hiragana_space|].
  apply normalize_hiragana_cat; [done|by apply normalize_hiragana_space].
Qed.

(** X16: a reading written in katakana and the same reading written in
    hiragana give the same word: on a string over U+3041 .. U+3094 moved
    up to the katakana block by 0x60, normalisation gives the string
    back. *)
Theorem normalize_hiragana_of_katakana (s : str) :
  Forall (λ h, 0x3041 ≤ h ≤ 0x3094) s →
  normalize_hiragana ((λ h, h + 0x60) <$> s) = Some s ∧
  normalize_hiragana s = Some s.
Proof.
  intros Hs. split.
  - unfold normalize_hiragana.
    assert (katakana_to_hiragana ((λ h, h + 0x60) <$> s) = Some s) as ->.
    { apply mapM_Some_2, Forall2_fmap_l.
      apply Forall_Forall2_diag. eapply Forall_impl; [exact Hs|].
      intros h Hh. cbn beta in Hh. unfold compose. cbn beta.
      destruct (convert_char_cases (h + 0x60))
        as [(h' & E & ->)|[(_ & _ & ->)|(_ & ? & _)]]; [|f_equal; lia|lia].
      rewrite special_lookup, !elem_of_cons, elem_of_nil in E.
      repeat destruct E as [[= ? ?]|E]; try lia. f_equal. lia. }
    cbn [mbind option_bind]. f_equal.
    induction Hs as [|h s Hh _ IH]; [done|].
    rewrite filter_cons_True by (apply elem_of_ALLOWED_HIRAGANA; lia).
    by rewrite IH.
  - apply normalize_hiragana_fixed. eapply Forall_impl; [exact Hs|].
    intros h Hh. apply elem_of_ALLOWED_HIRAGANA. cbn beta in Hh. lia.
Qed.

Lemma normalize_hiragana_of_katakana_witness :
  normalize_hiragana ((λ h, h + 0x60) <$> [0x3042; 0x3044; 0x3094]) = Some [0x3042; 0x3044; 0x3094] ∧
  normalize_hiragana [0x3042; 0x3044; 0x3094] = Some [0x3042; 0x3044; 0x3094].
Proof.
  apply (normalize_hiragana_of_katakana [0x3042; 0x3044; 0x3094]).
  repeat constructor; lia.
Defined.
